(** * Buffer pool global types (storage/innobase/include/buf0types.h)

    A shallow embedding of the header: the packed page identifier
    [page_id_t], the checksum-algorithm predicate, the buddy-system size
    macros and the mode-parameterised entry points of [page_hash_latch]. *)

From Stdlib Require Import ZArith Bool Lia List.
Import ListNotations.
Local Open Scope Z_scope.

(** ** Fixed-width unsigned arithmetic

    A value of a [w]-bit unsigned type is an integer in [0, 2^w); every
    arithmetic result is reduced modulo [2^w]. *)

Definition wrap (w x : Z) : Z := x mod 2 ^ w.

Definition u32 (x : Z) : Z := wrap 32 x.
Definition u64 (x : Z) : Z := wrap 64 x.

Definition is_u32 (x : Z) : Prop := 0 <= x < 2 ^ 32.
Definition is_u64 (x : Z) : Prop := 0 <= x < 2 ^ 64.

(** ** Debug assertions

    [ut_ad(EXPR)] is defined outside this header.  It aborts the process
    when [EXPR] is false, and it is compiled only into debug builds; the
    build is therefore a parameter of every operation that asserts. *)

Inductive build : Type :=
| Debug    (* assertions compiled in *)
| Release. (* assertions compiled out *)

Inductive outcome (A : Type) : Type :=
| Ok (a : A)
| AssertionFailure.

Arguments Ok {A} a.
Arguments AssertionFailure {A}.

Definition bind {A B : Type} (o : outcome A) (k : A -> outcome B) : outcome B :=
  match o with
  | Ok a => k a
  | AssertionFailure => AssertionFailure
  end.

Notation "o ;; k" := (bind o (fun _ => k))
  (at level 61, right associativity).

Definition ut_ad (b : build) (cond : bool) : outcome unit :=
  match b with
  | Debug => if cond then Ok tt else AssertionFailure
  | Release => Ok tt
  end.

(** ** Page identifier *)

(** [class page_id_t]: the single private member [uint64_t m_id]. *)
Record page_id_t : Type := mk_page_id { m_id : Z }.

(** A [page_id_t] object holds a 64-bit value. *)
Definition page_id_wf (id : page_id_t) : Prop := is_u64 (m_id id).

Module PageId.

(** [page_id_t(ulint space, uint32_t page_no)
      : m_id(uint64_t{space} << 32 | page_no)
    { ut_ad(space <= 0xFFFFFFFFU); }] *)
Definition make (b : build) (space page_no : Z) : outcome page_id_t :=
  let id := mk_page_id (Z.lor (u64 (Z.shiftl (u64 space) 32)) page_no) in
  ut_ad b (space <=? 0xFFFFFFFF) ;; Ok id.

(** [page_id_t(uint64_t id) : m_id(id) {}] *)
Definition of_raw (id : Z) : page_id_t := mk_page_id id.

(** The six comparison operators, all on [m_id]. *)
Definition eq (a b : page_id_t) : bool := m_id a =? m_id b.
Definition ne (a b : page_id_t) : bool := negb (m_id a =? m_id b).
Definition lt (a b : page_id_t) : bool := m_id a <? m_id b.
Definition gt (a b : page_id_t) : bool := m_id a >? m_id b.
Definition le (a b : page_id_t) : bool := m_id a <=? m_id b.
Definition ge (a b : page_id_t) : bool := m_id a >=? m_id b.

(** [uint32_t space() const { return static_cast<uint32_t>(m_id >> 32); }] *)
Definition space (id : page_id_t) : Z := u32 (Z.shiftr (m_id id) 32).

(** [uint32_t page_no() const { return static_cast<uint32_t>(m_id); }] *)
Definition page_no (id : page_id_t) : Z := u32 (m_id id).

(** [page_id_t &operator--() { ut_ad(page_no()); m_id--; return *this; }] *)
Definition pre_dec (b : build) (id : page_id_t) : outcome page_id_t :=
  ut_ad b (negb (page_no id =? 0)) ;;
  Ok (mk_page_id (u64 (m_id id - 1))).

(** [page_id_t &operator++()
    { ut_ad(page_no() < 0xFFFFFFFFU); m_id++; return *this; }] *)
Definition pre_inc (b : build) (id : page_id_t) : outcome page_id_t :=
  ut_ad b (page_no id <? 0xFFFFFFFF) ;;
  Ok (mk_page_id (u64 (m_id id + 1))).

(** [page_id_t operator-(uint32_t i) const
    { ut_ad(page_no() >= i); return page_id_t(m_id - i); }] *)
Definition sub (b : build) (id : page_id_t) (i : Z) : outcome page_id_t :=
  ut_ad b (page_no id >=? i) ;;
  Ok (of_raw (u64 (m_id id - i))).

(** [page_id_t operator+(uint32_t i) const
    { ut_ad(page_no() < ~i); return page_id_t(m_id + i); }] *)
Definition add (b : build) (id : page_id_t) (i : Z) : outcome page_id_t :=
  ut_ad b (page_no id <? u32 (Z.lnot i)) ;;
  Ok (of_raw (u64 (m_id id + i))).

(** [ulint fold() const { return (space() << 20) + space() + page_no(); }]

    [space()] and [page_no()] are [uint32_t], so the shift and both
    additions are carried out in 32-bit unsigned arithmetic; only the
    result is converted to [ulint].  The width of [ulint] is fixed by
    univ.i, outside this header, and is a parameter here. *)
Definition fold (ulint_bits : Z) (id : page_id_t) : Z :=
  wrap ulint_bits
    (u32 (u32 (u32 (Z.shiftl (space id) 20) + space id) + page_no id)).

(** [void set_page_no(uint32_t page_no)
    { m_id= (m_id & ~uint64_t{0} << 32) | page_no; }]

    [<<] binds tighter than [&]: the mask is [~uint64_t{0} << 32]. *)
Definition set_page_no (id : page_id_t) (page_no : Z) : page_id_t :=
  mk_page_id
    (Z.lor (Z.land (m_id id) (u64 (Z.shiftl (u64 (Z.lnot 0)) 32))) page_no).

(** [ulonglong raw() { return m_id; }]

    [ulonglong] is declared outside this header; [m_id] is converted to
    it on return, and the width of the type is a parameter here. *)
Definition raw (ulonglong_bits : Z) (id : page_id_t) : Z :=
  wrap ulonglong_bits (m_id id).

End PageId.

(** Lexicographic order on (tablespace id, page number). *)
Definition lex_lt (a b : page_id_t) : Prop :=
  PageId.space a < PageId.space b
  \/ (PageId.space a = PageId.space b /\ PageId.page_no a < PageId.page_no b).

(** ** Checksum algorithms *)

(** [enum srv_checksum_algorithm_t], enumerators numbered from 0. *)
Inductive srv_checksum_algorithm_t : Type :=
| SRV_CHECKSUM_ALGORITHM_CRC32
| SRV_CHECKSUM_ALGORITHM_STRICT_CRC32
| SRV_CHECKSUM_ALGORITHM_FULL_CRC32
| SRV_CHECKSUM_ALGORITHM_STRICT_FULL_CRC32.

Definition srv_checksum_algorithm_value (a : srv_checksum_algorithm_t) : Z :=
  match a with
  | SRV_CHECKSUM_ALGORITHM_CRC32 => 0
  | SRV_CHECKSUM_ALGORITHM_STRICT_CRC32 => 1
  | SRV_CHECKSUM_ALGORITHM_FULL_CRC32 => 2
  | SRV_CHECKSUM_ALGORITHM_STRICT_FULL_CRC32 => 3
  end.

(** [inline bool is_checksum_strict(srv_checksum_algorithm_t algo)
    { return algo == SRV_CHECKSUM_ALGORITHM_STRICT_CRC32; }] *)
Definition is_checksum_strict (algo : srv_checksum_algorithm_t) : bool :=
  srv_checksum_algorithm_value algo
  =? srv_checksum_algorithm_value SRV_CHECKSUM_ALGORITHM_STRICT_CRC32.

(** [inline bool is_checksum_strict(ulint algo)
    { return algo == SRV_CHECKSUM_ALGORITHM_STRICT_CRC32; }] *)
Definition is_checksum_strict_ulint (algo : Z) : bool :=
  algo =? srv_checksum_algorithm_value SRV_CHECKSUM_ALGORITHM_STRICT_CRC32.

(** ** Binary buddy system parameters *)

(** [x << n] on [unsigned int]: undefined when the count is not below the
    width of the type, otherwise the product reduced modulo [2^32]. *)
Definition shl_u32 (x n : Z) : option Z :=
  if (0 <=? n) && (n <? 32) then Some (u32 (Z.shiftl x n)) else None.

Section BuddySystem.

(** Declared in univ.i and srv0srv.h, outside this header. *)
Variable UNIV_ZIP_SIZE_SHIFT_MIN : Z.
Variable UNIV_PAGE_SIZE_SHIFT_MAX : Z.
Variable srv_page_size_shift : Z.
(** Width of the unsigned type in which the shift counts are subtracted. *)
Variable shift_bits : Z.

(** [#define BUF_BUDDY_LOW_SHIFT UNIV_ZIP_SIZE_SHIFT_MIN] *)
Definition BUF_BUDDY_LOW_SHIFT : Z := UNIV_ZIP_SIZE_SHIFT_MIN.

(** [#define BUF_BUDDY_LOW (1U << BUF_BUDDY_LOW_SHIFT)] *)
Definition BUF_BUDDY_LOW : option Z := shl_u32 1 BUF_BUDDY_LOW_SHIFT.

(** [#define BUF_BUDDY_SIZES (srv_page_size_shift - BUF_BUDDY_LOW_SHIFT)] *)
Definition BUF_BUDDY_SIZES : Z :=
  wrap shift_bits (srv_page_size_shift - BUF_BUDDY_LOW_SHIFT).

(** [#define BUF_BUDDY_SIZES_MAX
      (UNIV_PAGE_SIZE_SHIFT_MAX - BUF_BUDDY_LOW_SHIFT)] *)
Definition BUF_BUDDY_SIZES_MAX : Z :=
  wrap shift_bits (UNIV_PAGE_SIZE_SHIFT_MAX - BUF_BUDDY_LOW_SHIFT).

(** [#define BUF_BUDDY_HIGH (BUF_BUDDY_LOW << BUF_BUDDY_SIZES)] *)
Definition BUF_BUDDY_HIGH : option Z :=
  match BUF_BUDDY_LOW with
  | Some low => shl_u32 low BUF_BUDDY_SIZES
  | None => None
  end.

End BuddySystem.

(** ** Latches *)

(** [enum rw_lock_type_t] *)
Inductive rw_lock_type_t : Type :=
| RW_S_LATCH
| RW_X_LATCH
| RW_SX_LATCH
| RW_NO_LATCH.

Definition rw_lock_type_value (m : rw_lock_type_t) : Z :=
  match m with
  | RW_S_LATCH => Z.shiftl 1 0
  | RW_X_LATCH => Z.shiftl 1 1
  | RW_SX_LATCH => Z.shiftl 1 2
  | RW_NO_LATCH => Z.shiftl 1 3
  end.

(** [class page_hash_latch : public rw_lock].  The header declares
    [read_lock] and [write_lock] and inherits [read_unlock] and
    [write_unlock]; none of the four bodies is part of it.  They are the
    methods of an interface over an arbitrary type of actions. *)
Class page_hash_latch (action : Type) : Type := {
  read_lock : action;
  write_lock : action;
  read_unlock : action;
  write_unlock : action
}.

Section Dispatch.

Context {action : Type} `{L : page_hash_latch action}.

(** [template<bool exclusive> void acquire()
    { if (exclusive) write_lock(); else read_lock(); }] *)
Definition acquire (exclusive : bool) : action :=
  if exclusive then write_lock else read_lock.

(** [template<bool exclusive> void release()
    { if (exclusive) write_unlock(); else read_unlock(); }] *)
Definition release (exclusive : bool) : action :=
  if exclusive then write_unlock else read_unlock.

End Dispatch.

(** ** Latch modes and holders *)

Module HybridLatch.

(** Modelled from the spec: the locking protocol behind [read_lock],
    [write_lock] and the unlock operations (class [rw_lock], sux_lock.h)
    is missing from the header.  S is compatible with S and with SX;
    X excludes S, SX and X; SX excludes SX and X but is compatible with
    S; NO_LATCH is not an acquirable mode. *)
Definition compatible (requested held : rw_lock_type_t) : bool :=
  match requested, held with
  | RW_S_LATCH, RW_S_LATCH => true
  | RW_S_LATCH, RW_SX_LATCH => true
  | RW_SX_LATCH, RW_S_LATCH => true
  | _, _ => false
  end.

Definition acquirable (m : rw_lock_type_t) : bool :=
  match m with
  | RW_NO_LATCH => false
  | _ => true
  end.

Definition thread : Type := nat.

(** Modelled from the spec: a latch is known by its outstanding holders,
    each a thread and the mode it was granted. *)
Definition latch : Type := list (thread * rw_lock_type_t).

Definition grantable (m : rw_lock_type_t) (l : latch) : bool :=
  acquirable m && forallb (fun h => compatible m (snd h)) l.

(** Modelled from the spec: a blocking acquire returns only once the mode
    is granted.  [Some l'] is the latch after the grant; [None] means the
    caller stays blocked and the latch is as it was. *)
Definition request (t : thread) (m : rw_lock_type_t) (l : latch)
  : option latch :=
  if grantable m l then Some ((t, m) :: l) else None.

Definition holder_eqb (a b : thread * rw_lock_type_t) : bool :=
  Nat.eqb (fst a) (fst b)
  && (rw_lock_type_value (snd a) =? rw_lock_type_value (snd b)).

(** Modelled from the spec: a release is paired with the acquire of the
    same mode by the same holder; [None] is the unpaired release. *)
Fixpoint unlock (t : thread) (m : rw_lock_type_t) (l : latch)
  : option latch :=
  match l with
  | [] => None
  | h :: r =>
      if holder_eqb h (t, m) then Some r
      else match unlock t m r with
           | Some r' => Some (h :: r')
           | None => None
           end
  end.

(** Requests of one mode by several threads, one after the other; the
    result is [None] as soon as one of them would block. *)
Fixpoint request_all (m : rw_lock_type_t) (ts : list thread) (l : latch)
  : option latch :=
  match ts with
  | [] => Some l
  | t :: ts' =>
      match request t m l with
      | Some l' => request_all m ts' l'
      | None => None
      end
  end.

(** Latch states that arise from the free latch by grants and paired
    releases. *)
Inductive reachable : latch -> Prop :=
| reachable_free : reachable []
| reachable_grant t m l l' :
    reachable l -> request t m l = Some l' -> reachable l'
| reachable_release t m l l' :
    reachable l -> unlock t m l = Some l' -> reachable l'.

Definition holds (m : rw_lock_type_t) (l : latch) : Prop :=
  exists t, In (t, m) l.

(** Releases by several holders, one after the other. *)
Fixpoint unlock_all (hs : list (thread * rw_lock_type_t)) (l : latch)
  : option latch :=
  match hs with
  | [] => Some l
  | h :: hs' =>
      match unlock (fst h) (snd h) l with
      | Some l' => unlock_all hs' l'
      | None => None
      end
  end.

(** Every holder was granted its mode against the holders before it. *)
Fixpoint coherent (l : latch) : bool :=
  match l with
  | [] => true
  | h :: r => grantable (snd h) r && coherent r
  end.

(** The page hash latch of one thread: S by [read_lock], X by
    [write_lock]. *)
Definition of_thread (t : thread)
  : page_hash_latch (latch -> option latch) :=
  {| read_lock := request t RW_S_LATCH;
     write_lock := request t RW_X_LATCH;
     read_unlock := unlock t RW_S_LATCH;
     write_unlock := unlock t RW_X_LATCH |}.

End HybridLatch.

(** * Properties *)

(** ** Arithmetic of the packed representation *)

Lemma wrap_small (w x : Z) : 0 <= x < 2 ^ w -> wrap w x = x.
Proof. intros H. unfold wrap. now apply Z.mod_small. Qed.

Lemma wrap_range (w x : Z) : 0 <= w -> 0 <= wrap w x < 2 ^ w.
Proof.
  intros H. unfold wrap. apply Z.mod_pos_bound. now apply Z.pow_pos_nonneg.
Qed.

Lemma pow2_mono (a b : Z) : 0 <= a <= b -> 2 ^ a <= 2 ^ b.
Proof. intros H. apply Z.pow_le_mono_r; lia. Qed.

Lemma wrap_wide (w v x : Z) : 0 <= v <= w -> 0 <= x < 2 ^ v -> wrap w x = x.
Proof.
  intros Hw Hx. apply wrap_small. pose proof (pow2_mono v w Hw). lia.
Qed.

(** Two fields that do not overlap are joined by [Z.lor] as by a sum. *)
Lemma lor_fields (hi lo : Z) :
  0 <= lo < 2 ^ 32 -> Z.lor (hi * 2 ^ 32) lo = hi * 2 ^ 32 + lo.
Proof.
  intros Hlo.
  assert (Hdisj : Z.land (hi * 2 ^ 32) lo = 0).
  { apply Z.bits_inj'. intros n Hn.
    rewrite Z.land_spec, Z.bits_0.
    destruct (Z.lt_ge_cases n 32) as [Hlt | Hge].
    - rewrite Z.mul_pow2_bits_low by lia. reflexivity.
    - replace lo with (lo mod 2 ^ 32) by (apply Z.mod_small; lia).
      rewrite Z.mod_pow2_bits_high by lia. apply andb_false_r. }
  rewrite <- Z.lxor_lor by exact Hdisj.
  symmetry. now apply Z.add_nocarry_lxor.
Qed.

(** The mask of [set_page_no] keeps the upper field and clears the lower. *)
Lemma mask_upper_field (m : Z) :
  0 <= m < 2 ^ 64 ->
  Z.land m (u64 (Z.shiftl (u64 (Z.lnot 0)) 32)) = (m / 2 ^ 32) * 2 ^ 32.
Proof.
  intros Hm.
  replace (u64 (Z.shiftl (u64 (Z.lnot 0)) 32))
    with (Z.shiftl (Z.ones 32) 32) by (vm_compute; reflexivity).
  rewrite <- Z.shiftl_mul_pow2, <- Z.shiftr_div_pow2 by lia.
  apply Z.bits_inj'. intros n Hn.
  rewrite Z.land_spec.
  destruct (Z.lt_ge_cases n 32) as [Hlt | Hge].
  - rewrite !Z.shiftl_spec_low by lia. apply andb_false_r.
  - rewrite !Z.shiftl_spec, Z.shiftr_spec by lia.
    replace (n - 32 + 32) with n by lia.
    destruct (Z.lt_ge_cases n 64) as [Hlt | Hge'].
    + rewrite Z.ones_spec_low by lia. apply andb_true_r.
    + rewrite Z.ones_spec_high by lia.
      replace m with (m mod 2 ^ 64) by (apply Z.mod_small; lia).
      rewrite Z.mod_pow2_bits_high by lia. reflexivity.
Qed.

Lemma shiftr32_div (m : Z) : Z.shiftr m 32 = m / 2 ^ 32.
Proof. apply Z.shiftr_div_pow2. lia. Qed.

(** Reading both fields of the sum [s * 2^32 + p]. *)
Lemma fields_of_sum (s p : Z) :
  is_u32 s -> is_u32 p ->
  PageId.space (mk_page_id (s * 2 ^ 32 + p)) = s
  /\ PageId.page_no (mk_page_id (s * 2 ^ 32 + p)) = p.
Proof.
  unfold is_u32, PageId.space, PageId.page_no, u32, wrap. cbn [m_id].
  intros Hs Hp. rewrite shiftr32_div. split.
  - rewrite Z.div_add_l by lia. rewrite (Z.div_small p) by lia.
    rewrite Z.add_0_r. now apply Z.mod_small.
  - rewrite Z.add_comm, Z.mod_add by lia. now apply Z.mod_small.
Qed.

Lemma sum_is_u64 (s p : Z) :
  is_u32 s -> is_u32 p -> is_u64 (s * 2 ^ 32 + p).
Proof. unfold is_u32, is_u64. change (2 ^ 64) with (2 ^ 32 * 2 ^ 32). nia. Qed.

Lemma space_range (id : page_id_t) : is_u32 (PageId.space id).
Proof. apply wrap_range. lia. Qed.

Lemma page_no_range (id : page_id_t) : is_u32 (PageId.page_no id).
Proof. apply wrap_range. lia. Qed.

(** Every 64-bit identifier is the sum of its two fields. *)
Lemma m_id_fields (id : page_id_t) :
  page_id_wf id ->
  m_id id = PageId.space id * 2 ^ 32 + PageId.page_no id.
Proof.
  unfold page_id_wf, is_u64, PageId.space, PageId.page_no, u32, wrap.
  intros H. rewrite shiftr32_div.
  assert (Hq : 0 <= m_id id / 2 ^ 32 < 2 ^ 32).
  { split.
    - apply Z.div_pos; lia.
    - apply Z.div_lt_upper_bound; [lia |].
      change (2 ^ 32 * 2 ^ 32) with (2 ^ 64). lia. }
  rewrite (Z.mod_small (m_id id / 2 ^ 32)) by exact Hq.
  pose proof (Z.div_mod (m_id id) (2 ^ 32)). lia.
Qed.

(** The constructor stores the sum of the fields and asserts nothing that
    a 32-bit tablespace id can fail. *)
Lemma make_sum (b : build) (s p : Z) :
  is_u32 s -> is_u32 p ->
  PageId.make b s p = Ok (mk_page_id (s * 2 ^ 32 + p)).
Proof.
  unfold is_u32. intros Hs Hp. unfold PageId.make.
  assert (Hle : (s <=? 0xFFFFFFFF) = true) by (apply Z.leb_le; lia).
  rewrite Hle.
  replace (ut_ad b true) with (Ok tt) by (destruct b; reflexivity).
  cbn [bind]. do 2 f_equal.
  unfold u64. rewrite (wrap_wide 64 32 s) by lia.
  rewrite Z.shiftl_mul_pow2 by lia.
  rewrite wrap_small.
  - apply lor_fields; lia.
  - change (2 ^ 64) with (2 ^ 32 * 2 ^ 32). nia.
Qed.

(** ** Construction and accessors *)

(** C1: for every tablespace id and page number in [0, 2^32-1], in either
    build, the constructor returns an identifier whose [space()] is the
    tablespace id and whose [page_no()] is the page number. *)
Theorem make_roundtrip (b : build) (tablespace page_no : Z) :
  is_u32 tablespace -> is_u32 page_no ->
  exists id,
    PageId.make b tablespace page_no = Ok id
    /\ page_id_wf id
    /\ PageId.space id = tablespace
    /\ PageId.page_no id = page_no.
Proof.
  intros Hs Hp. exists (mk_page_id (tablespace * 2 ^ 32 + page_no)).
  split; [now apply make_sum |].
  split; [now apply sum_is_u64 |].
  now apply fields_of_sum.
Qed.

Lemma make_roundtrip_witness :
  exists id,
    PageId.make Debug 0xFFFFFFFF 0xFFFFFFFF = Ok id
    /\ page_id_wf id
    /\ PageId.space id = 0xFFFFFFFF
    /\ PageId.page_no id = 0xFFFFFFFF.
Proof.
  apply (make_roundtrip Debug 0xFFFFFFFF 0xFFFFFFFF); unfold is_u32; lia.
Defined.

(** C8: an identifier rebuilt from its raw packed value, through the
    conversions to [ulonglong] and back to [uint64_t], is the identifier
    itself: equal under [operator==], with the same tablespace id and page
    number.  Rebuilding it from its two fields gives it back as well. *)
Theorem raw_roundtrip (ulonglong_bits : Z) (id : page_id_t) :
  64 <= ulonglong_bits ->
  page_id_wf id ->
  let id' := PageId.of_raw (u64 (PageId.raw ulonglong_bits id)) in
  id' = id
  /\ PageId.eq id' id = true
  /\ PageId.space id' = PageId.space id
  /\ PageId.page_no id' = PageId.page_no id
  /\ forall b, PageId.make b (PageId.space id) (PageId.page_no id) = Ok id.
Proof.
  intros Hw Hwf id'.
  assert (E : id' = id).
  { subst id'. unfold PageId.of_raw, PageId.raw, u64.
    rewrite (wrap_wide ulonglong_bits 64) by (exact Hwf || lia).
    rewrite wrap_small by exact Hwf. now destruct id. }
  rewrite E. split; [reflexivity |].
  split; [apply Z.eqb_refl |].
  split; [reflexivity |]. split; [reflexivity |].
  intros b. rewrite make_sum by (apply space_range || apply page_no_range).
  rewrite <- m_id_fields by exact Hwf. now destruct id.
Qed.

Lemma raw_roundtrip_witness :
  let id := mk_page_id 0x0000000500000007 in
  let id' := PageId.of_raw (u64 (PageId.raw 64 id)) in
  id' = id
  /\ PageId.eq id' id = true
  /\ PageId.space id' = PageId.space id
  /\ PageId.page_no id' = PageId.page_no id
  /\ forall b, PageId.make b (PageId.space id) (PageId.page_no id) = Ok id.
Proof.
  apply (raw_roundtrip 64 (mk_page_id 0x0000000500000007)).
  - lia.
  - unfold page_id_wf, is_u64. cbn [m_id]. lia.
Defined.

(** C10: [set_page_no(p)] with a 32-bit [p] makes [page_no()] equal to
    [p] and leaves [space()] as it was. *)
Theorem set_page_no_frame (id : page_id_t) (p : Z) :
  page_id_wf id -> is_u32 p ->
  PageId.page_no (PageId.set_page_no id p) = p
  /\ PageId.space (PageId.set_page_no id p) = PageId.space id
  /\ page_id_wf (PageId.set_page_no id p).
Proof.
  intros Hwf Hp. unfold PageId.set_page_no.
  rewrite mask_upper_field by exact Hwf.
  rewrite lor_fields by exact Hp.
  assert (Hs : m_id id / 2 ^ 32 = PageId.space id).
  { rewrite (m_id_fields id Hwf) at 1.
    pose proof (page_no_range id) as Hr. unfold is_u32 in Hr.
    rewrite Z.div_add_l by lia. rewrite Z.div_small by exact Hr. lia. }
  rewrite Hs.
  destruct (fields_of_sum (PageId.space id) p (space_range id) Hp) as [E1 E2].
  split; [exact E2 |]. split; [exact E1 |].
  apply sum_is_u64; [apply space_range | exact Hp].
Qed.

Lemma set_page_no_frame_witness :
  let id := mk_page_id 0x00000005FFFFFFFF in
  PageId.page_no (PageId.set_page_no id 7) = 7
  /\ PageId.space (PageId.set_page_no id 7) = PageId.space id
  /\ page_id_wf (PageId.set_page_no id 7).
Proof.
  apply (set_page_no_frame (mk_page_id 0x00000005FFFFFFFF) 7).
  - unfold page_id_wf, is_u64. cbn [m_id]. lia.
  - unfold is_u32. lia.
Defined.

(** ** Ordering *)

Lemma m_id_lt_lex (a b : page_id_t) :
  page_id_wf a -> page_id_wf b -> (m_id a < m_id b <-> lex_lt a b).
Proof.
  intros Ha Hb. unfold lex_lt.
  rewrite (m_id_fields a Ha), (m_id_fields b Hb).
  pose proof (space_range a) as Sa. pose proof (space_range b) as Sb.
  pose proof (page_no_range a) as Pa. pose proof (page_no_range b) as Pb.
  unfold is_u32 in *.
  change (2 ^ 32) with 4294967296 in *. lia.
Qed.

Lemma m_id_eq_fields (a b : page_id_t) :
  page_id_wf a -> page_id_wf b ->
  (m_id a = m_id b
   <-> PageId.space a = PageId.space b /\ PageId.page_no a = PageId.page_no b).
Proof.
  intros Ha Hb. split.
  - intros E. unfold PageId.space, PageId.page_no. now rewrite E.
  - intros [Es Ep]. rewrite (m_id_fields a Ha), (m_id_fields b Hb). congruence.
Qed.

(** C3: the comparison operators are a strict total order on identifiers,
    and it is the lexicographic order on (tablespace id, page number):
    identifiers built with a smaller tablespace id come first whatever the
    page numbers, and within one tablespace the page number decides. *)
Theorem page_id_order (a b c : page_id_t) :
  page_id_wf a -> page_id_wf b -> page_id_wf c ->
  (PageId.lt a b = true <-> lex_lt a b)
  /\ (PageId.space a = PageId.space b ->
      (PageId.lt a b = true <-> PageId.page_no a < PageId.page_no b))
  /\ (PageId.eq a b = true
      <-> PageId.space a = PageId.space b
          /\ PageId.page_no a = PageId.page_no b)
  /\ (PageId.eq a b = true <-> a = b)
  /\ PageId.ne a b = negb (PageId.eq a b)
  /\ PageId.le a b = PageId.lt a b || PageId.eq a b
  /\ PageId.gt a b = PageId.lt b a
  /\ PageId.ge a b = PageId.le b a
  /\ PageId.lt a a = false
  /\ (PageId.lt a b = true -> PageId.lt b c = true -> PageId.lt a c = true)
  /\ (PageId.lt a b = true -> PageId.lt b a = false)
  /\ (PageId.lt a b = true \/ PageId.eq a b = true \/ PageId.lt b a = true)
  /\ (forall bld sA pA sB pB,
        is_u32 sA -> is_u32 pA -> is_u32 sB -> is_u32 pB -> sA < sB ->
        exists ia ib,
          PageId.make bld sA pA = Ok ia
          /\ PageId.make bld sB pB = Ok ib
          /\ PageId.lt ia ib = true).
Proof.
  intros Ha Hb Hc.
  assert (Hlex : PageId.lt a b = true <-> lex_lt a b).
  { unfold PageId.lt. rewrite Z.ltb_lt. now apply m_id_lt_lex. }
  assert (Heq : PageId.eq a b = true <-> m_id a = m_id b).
  { unfold PageId.eq. apply Z.eqb_eq. }
  split; [exact Hlex |].
  split. { intros Es. rewrite Hlex. unfold lex_lt. lia. }
  split. { rewrite Heq. now apply m_id_eq_fields. }
  split.
  { rewrite Heq. split; [| congruence].
    destruct a, b. cbn [m_id]. congruence. }
  unfold PageId.lt, PageId.eq, PageId.ne, PageId.le, PageId.gt, PageId.ge.
  split; [reflexivity |].
  split.
  { destruct (Z.leb_spec (m_id a) (m_id b)), (Z.ltb_spec (m_id a) (m_id b)),
      (Z.eqb_spec (m_id a) (m_id b)); cbn; trivial; lia. }
  split; [apply Z.gtb_ltb |].
  split; [apply Z.geb_leb |].
  split; [apply Z.ltb_irrefl |].
  split. { rewrite !Z.ltb_lt. lia. }
  split. { rewrite Z.ltb_lt, Z.ltb_ge. lia. }
  split. { rewrite !Z.ltb_lt, Z.eqb_eq. lia. }
  intros bld sA pA sB pB HsA HpA HsB HpB Hlt.
  exists (mk_page_id (sA * 2 ^ 32 + pA)), (mk_page_id (sB * 2 ^ 32 + pB)).
  split; [now apply make_sum |]. split; [now apply make_sum |].
  cbn [m_id]. apply Z.ltb_lt. unfold is_u32 in *.
  change (2 ^ 32) with 4294967296 in *. lia.
Qed.

Lemma page_id_order_witness :
  let a := mk_page_id 0x00000001FFFFFFFF in
  let b := mk_page_id 0x0000000200000000 in
  let c := mk_page_id 0x0000000200000001 in
  page_id_wf a /\ page_id_wf b /\ page_id_wf c
  /\ (PageId.lt a b = true <-> lex_lt a b)
  /\ (PageId.lt a b = true -> PageId.lt b c = true -> PageId.lt a c = true).
Proof.
  cbv zeta.
  assert (Ha : page_id_wf (mk_page_id 0x00000001FFFFFFFF)).
  { unfold page_id_wf, is_u64. cbn [m_id]. lia. }
  assert (Hb : page_id_wf (mk_page_id 0x0000000200000000)).
  { unfold page_id_wf, is_u64. cbn [m_id]. lia. }
  assert (Hc : page_id_wf (mk_page_id 0x0000000200000001)).
  { unfold page_id_wf, is_u64. cbn [m_id]. lia. }
  split; [exact Ha |]. split; [exact Hb |]. split; [exact Hc |].
  pose proof (page_id_order _ _ _ Ha Hb Hc) as H.
  split; [apply H |]. apply H.
Defined.

(** ** Page-number arithmetic *)

Lemma ut_ad_true (b : build) : ut_ad b true = Ok tt.
Proof. now destruct b. Qed.

Lemma Ok_inj {A : Type} (x y : A) : Ok x = Ok y -> x = y.
Proof. intros H. now inversion H. Qed.

Lemma pre_inc_in_contract (b : build) (id : page_id_t) :
  page_id_wf id -> PageId.page_no id < 0xFFFFFFFF ->
  PageId.pre_inc b id
  = Ok (mk_page_id (PageId.space id * 2 ^ 32 + (PageId.page_no id + 1))).
Proof.
  intros Hwf Hp. unfold PageId.pre_inc.
  apply Z.ltb_lt in Hp. rewrite Hp, ut_ad_true. cbn [bind].
  apply Z.ltb_lt in Hp. do 2 f_equal.
  rewrite (m_id_fields id Hwf) at 1.
  pose proof (space_range id) as Hs. pose proof (page_no_range id) as Hr.
  unfold is_u32 in *. unfold u64. rewrite wrap_small; [lia |].
  change (2 ^ 64) with (2 ^ 32 * 2 ^ 32). nia.
Qed.

Lemma pre_dec_in_contract (b : build) (id : page_id_t) :
  page_id_wf id -> 0 < PageId.page_no id ->
  PageId.pre_dec b id
  = Ok (mk_page_id (PageId.space id * 2 ^ 32 + (PageId.page_no id - 1))).
Proof.
  intros Hwf Hp. unfold PageId.pre_dec.
  assert (Hnz : negb (PageId.page_no id =? 0) = true).
  { apply negb_true_iff, Z.eqb_neq. lia. }
  rewrite Hnz, ut_ad_true. cbn [bind]. do 2 f_equal.
  rewrite (m_id_fields id Hwf) at 1.
  pose proof (space_range id) as Hs. pose proof (page_no_range id) as Hr.
  unfold is_u32 in *. unfold u64. rewrite wrap_small; [lia |].
  change (2 ^ 64) with (2 ^ 32 * 2 ^ 32). nia.
Qed.

(** The 64-bit increment at the top of the page-number field carries into
    the tablespace field, and the decrement at its bottom borrows from
    it. *)
Lemma u64_carry (s : Z) :
  u64 (s * 2 ^ 32 + 0xFFFFFFFF + 1) = (s + 1) mod 2 ^ 32 * 2 ^ 32 + 0.
Proof.
  unfold u64, wrap.
  replace (s * 2 ^ 32 + 0xFFFFFFFF + 1) with ((s + 1) * 2 ^ 32) by lia.
  change (2 ^ 64) with (2 ^ 32 * 2 ^ 32).
  rewrite Z.mul_mod_distr_r by lia. lia.
Qed.

Lemma u64_borrow (s : Z) :
  u64 (s * 2 ^ 32 + 0 - 1) = (s - 1) mod 2 ^ 32 * 2 ^ 32 + 0xFFFFFFFF.
Proof.
  unfold u64, wrap.
  pose proof (Z.div_mod (s - 1) (2 ^ 32)) as D.
  pose proof (Z.mod_pos_bound (s - 1) (2 ^ 32)) as B.
  set (q := (s - 1) / 2 ^ 32) in *. set (r := (s - 1) mod 2 ^ 32) in *.
  change (2 ^ 32) with 4294967296 in *.
  change (2 ^ 64) with 18446744073709551616.
  replace (s * 4294967296 + 0 - 1)
    with (r * 4294967296 + 0xFFFFFFFF + q * 18446744073709551616) by lia.
  rewrite Z.mod_add by lia. apply Z.mod_small. lia.
Qed.

(** C4 (as the code has it): with the assertions compiled in, [next()] on
    page number 0xFFFFFFFF and [prev()] on page number 0 fail, and whatever
    they return otherwise has the page number moved by exactly one within
    the same tablespace; in either build, [next()] then [prev()] on a page
    number below 0xFFFFFFFF gives the identifier back, the tablespace id
    being the same at each step.  With the assertions compiled out,
    [next()] on page number 0xFFFFFFFF succeeds with page number 0 in the
    tablespace one up, and [prev()] on page number 0 succeeds with page
    number 0xFFFFFFFF in the tablespace one down, the tablespace id taken
    modulo 2^32. *)
Theorem next_prev_contract (id : page_id_t) :
  page_id_wf id ->
  (PageId.page_no id < 0xFFFFFFFF ->
   forall b, exists id',
     PageId.pre_inc b id = Ok id'
     /\ page_id_wf id'
     /\ PageId.space id' = PageId.space id
     /\ PageId.page_no id' = PageId.page_no id + 1
     /\ PageId.pre_dec b id' = Ok id)
  /\ (PageId.page_no id = 0xFFFFFFFF ->
      PageId.pre_inc Debug id = AssertionFailure)
  /\ (PageId.page_no id = 0 -> PageId.pre_dec Debug id = AssertionFailure)
  /\ (forall id', PageId.pre_inc Debug id = Ok id' ->
        PageId.space id' = PageId.space id
        /\ PageId.page_no id' = PageId.page_no id + 1)
  /\ (forall id', PageId.pre_dec Debug id = Ok id' ->
        PageId.space id' = PageId.space id
        /\ PageId.page_no id' = PageId.page_no id - 1)
  /\ (PageId.page_no id = 0xFFFFFFFF ->
      exists id',
        PageId.pre_inc Release id = Ok id'
        /\ page_id_wf id'
        /\ PageId.page_no id' = 0
        /\ PageId.space id' = (PageId.space id + 1) mod 2 ^ 32)
  /\ (PageId.page_no id = 0 ->
      exists id',
        PageId.pre_dec Release id = Ok id'
        /\ page_id_wf id'
        /\ PageId.page_no id' = 0xFFFFFFFF
        /\ PageId.space id' = (PageId.space id - 1) mod 2 ^ 32).
Proof.
  intros Hwf.
  pose proof (space_range id) as Hs. pose proof (page_no_range id) as Hr.
  assert (Hup : PageId.page_no id < 0xFFFFFFFF ->
                is_u32 (PageId.page_no id + 1)).
  { unfold is_u32 in *. lia. }
  split.
  { intros Hp b.
    exists (mk_page_id (PageId.space id * 2 ^ 32 + (PageId.page_no id + 1))).
    destruct (fields_of_sum _ _ Hs (Hup Hp)) as [Es Ep].
    assert (Hwf' : page_id_wf
              (mk_page_id (PageId.space id * 2 ^ 32 + (PageId.page_no id + 1)))).
    { apply sum_is_u64; auto. }
    split; [now apply pre_inc_in_contract |].
    split; [exact Hwf' |]. split; [exact Es |]. split; [exact Ep |].
    rewrite pre_dec_in_contract; [| exact Hwf' | rewrite Ep; unfold is_u32 in Hr; lia].
    rewrite Es, Ep.
    transitivity (Ok (mk_page_id (m_id id))); [| now destruct id].
    rewrite (m_id_fields id Hwf). do 2 f_equal. lia. }
  split.
  { intros Hp. unfold PageId.pre_inc. rewrite Hp. reflexivity. }
  split.
  { intros Hp. unfold PageId.pre_dec. rewrite Hp. reflexivity. }
  split.
  { intros id' H.
    destruct (Z.ltb_spec (PageId.page_no id) 0xFFFFFFFF) as [Hp | Hp].
    - rewrite pre_inc_in_contract in H by assumption.
      apply Ok_inj in H. subst id'. apply fields_of_sum; auto.
    - unfold PageId.pre_inc in H.
      apply Z.ltb_ge in Hp. rewrite Hp in H. discriminate. }
  split.
  { intros id' H.
    destruct (Z.eqb_spec (PageId.page_no id) 0) as [Hp | Hp].
    - unfold PageId.pre_dec in H. rewrite Hp in H. discriminate.
    - unfold is_u32 in Hr.
      rewrite pre_dec_in_contract in H by (assumption || lia).
      apply Ok_inj in H. subst id'. apply fields_of_sum; [exact Hs |].
      unfold is_u32. lia. }
  assert (Hmod : forall x, is_u32 (x mod 2 ^ 32)).
  { intros x. unfold is_u32. apply Z.mod_pos_bound. lia. }
  assert (H0 : is_u32 0) by (unfold is_u32; lia).
  assert (Hmax : is_u32 0xFFFFFFFF) by (unfold is_u32; lia).
  split.
  { intros Hp.
    exists (mk_page_id ((PageId.space id + 1) mod 2 ^ 32 * 2 ^ 32 + 0)).
    split.
    - unfold PageId.pre_inc. cbn [ut_ad bind]. do 2 f_equal.
      rewrite (m_id_fields id Hwf), Hp. apply u64_carry.
    - split; [apply sum_is_u64; auto |].
      destruct (fields_of_sum _ 0 (Hmod (PageId.space id + 1)) H0) as [Es Ep].
      now split. }
  intros Hp.
  exists (mk_page_id ((PageId.space id - 1) mod 2 ^ 32 * 2 ^ 32 + 0xFFFFFFFF)).
  split.
  - unfold PageId.pre_dec. cbn [ut_ad bind]. do 2 f_equal.
    rewrite (m_id_fields id Hwf), Hp. apply u64_borrow.
  - split; [apply sum_is_u64; auto |].
    destruct (fields_of_sum _ 0xFFFFFFFF (Hmod (PageId.space id - 1)) Hmax)
      as [Es Ep].
    now split.
Qed.

Lemma next_prev_contract_witness :
  let id := mk_page_id 0x0000000300000005 in
  page_id_wf id
  /\ PageId.page_no id < 0xFFFFFFFF
  /\ forall b, exists id',
      PageId.pre_inc b id = Ok id'
      /\ page_id_wf id'
      /\ PageId.space id' = PageId.space id
      /\ PageId.page_no id' = PageId.page_no id + 1
      /\ PageId.pre_dec b id' = Ok id.
Proof.
  cbv zeta.
  assert (Hwf : page_id_wf (mk_page_id 0x0000000300000005)).
  { unfold page_id_wf, is_u64. cbn [m_id]. lia. }
  assert (Hp : PageId.page_no (mk_page_id 0x0000000300000005) < 0xFFFFFFFF).
  { vm_compute. reflexivity. }
  split; [exact Hwf |]. split; [exact Hp |].
  exact (proj1 (next_prev_contract _ Hwf) Hp).
Defined.

(** C4, counterexample to the unqualified statement: with the assertions
    compiled out nothing stops [next()] at page number
    0xFFFFFFFF or [prev()] at page number 0: the page number wraps and the
    tablespace id moves with it. *)
Lemma next_prev_wrap_in_release :
  let top := mk_page_id 0x00000003FFFFFFFF in
  let bottom := mk_page_id 0x0000000300000000 in
  page_id_wf top /\ PageId.space top = 3 /\ PageId.page_no top = 0xFFFFFFFF
  /\ page_id_wf bottom /\ PageId.space bottom = 3 /\ PageId.page_no bottom = 0
  /\ PageId.pre_inc Release top = Ok (mk_page_id 0x0000000400000000)
  /\ PageId.space (mk_page_id 0x0000000400000000) = 4
  /\ PageId.page_no (mk_page_id 0x0000000400000000) = 0
  /\ PageId.pre_dec Release bottom = Ok (mk_page_id 0x00000002FFFFFFFF)
  /\ PageId.space (mk_page_id 0x00000002FFFFFFFF) = 2
  /\ PageId.page_no (mk_page_id 0x00000002FFFFFFFF) = 0xFFFFFFFF.
Proof.
  cbv zeta. unfold page_id_wf, is_u64. cbn [m_id].
  repeat split; try lia; vm_compute; reflexivity.
Qed.

(** ** Fold value *)

Lemma fold_mod (ulint_bits : Z) (id : page_id_t) :
  32 <= ulint_bits ->
  PageId.fold ulint_bits id
  = (Z.shiftl (PageId.space id) 20 + PageId.space id + PageId.page_no id)
    mod 2 ^ 32.
Proof.
  intros Hw. unfold PageId.fold.
  rewrite (wrap_wide ulint_bits 32) by (lia || (apply wrap_range; lia)).
  unfold u32 at 1 2 3, wrap.
  rewrite Z.add_mod_idemp_l by lia.
  rewrite <- Z.add_assoc, Z.add_mod_idemp_l by lia.
  now rewrite Z.add_assoc.
Qed.

(** C2 (as the code has it): the shift and both additions are 32-bit, so
    [fold()] is [(tablespace << 20) + tablespace + page_no] reduced modulo
    2^32, whatever the width of [ulint] from 32 bits up; it is that sum
    itself whenever the sum is below 2^32, as for [make(3, 100)]. *)
Theorem fold_formula (ulint_bits : Z) (id : page_id_t) :
  32 <= ulint_bits ->
  let sum :=
    Z.shiftl (PageId.space id) 20 + PageId.space id + PageId.page_no id in
  PageId.fold ulint_bits id = sum mod 2 ^ 32
  /\ (sum < 2 ^ 32 -> PageId.fold ulint_bits id = sum)
  /\ (forall b, exists id3,
        PageId.make b 3 100 = Ok id3
        /\ PageId.fold ulint_bits id3 = Z.shiftl 3 20 + 3 + 100).
Proof.
  intros Hw sum. split; [now apply fold_mod |]. split.
  - intros Hlt. rewrite fold_mod by exact Hw. apply Z.mod_small.
    pose proof (space_range id) as Hs. pose proof (page_no_range id) as Hr.
    unfold is_u32 in *. subst sum. split; [| exact Hlt].
    rewrite Z.shiftl_mul_pow2 by lia. lia.
  - intros b. exists (mk_page_id (3 * 2 ^ 32 + 100)). split.
    + apply make_sum; unfold is_u32; lia.
    + rewrite fold_mod by exact Hw. vm_compute. reflexivity.
Qed.

Lemma fold_formula_witness :
  PageId.fold 64 (mk_page_id 0x0000000300000064)
  = Z.shiftl (PageId.space (mk_page_id 0x0000000300000064)) 20
    + PageId.space (mk_page_id 0x0000000300000064)
    + PageId.page_no (mk_page_id 0x0000000300000064).
Proof.
  apply (fold_formula 64 (mk_page_id 0x0000000300000064)).
  - lia.
  - vm_compute. reflexivity.
Defined.

(** C2, counterexample to the unreduced formula: the sum itself is not
    what [fold()] returns once it reaches 2^32:
    tablespace 4096, page 0, folds to 4096 with a 64-bit [ulint]. *)
Lemma fold_wraps_at_32_bits :
  let id := mk_page_id 0x0000100000000000 in
  page_id_wf id
  /\ PageId.make Debug 4096 0 = Ok id
  /\ PageId.fold 64 id = 4096
  /\ Z.shiftl (PageId.space id) 20 + PageId.space id + PageId.page_no id
     = 4294971392
  /\ PageId.fold 64 id
     <> Z.shiftl (PageId.space id) 20 + PageId.space id + PageId.page_no id.
Proof.
  cbv zeta. unfold page_id_wf, is_u64. cbn [m_id].
  repeat split; try lia; try (vm_compute; reflexivity).
  vm_compute. discriminate.
Qed.

(** ** Checksum strictness *)

(** C5: both overloads of [is_checksum_strict] answer true for
    STRICT_CRC32 and false for CRC32, FULL_CRC32 and STRICT_FULL_CRC32;
    the [ulint] overload answers true for the value 1 and no other. *)
Theorem is_checksum_strict_only_strict_crc32 :
  is_checksum_strict SRV_CHECKSUM_ALGORITHM_STRICT_CRC32 = true
  /\ is_checksum_strict SRV_CHECKSUM_ALGORITHM_CRC32 = false
  /\ is_checksum_strict SRV_CHECKSUM_ALGORITHM_FULL_CRC32 = false
  /\ is_checksum_strict SRV_CHECKSUM_ALGORITHM_STRICT_FULL_CRC32 = false
  /\ (forall algo,
        is_checksum_strict algo = true
        <-> algo = SRV_CHECKSUM_ALGORITHM_STRICT_CRC32)
  /\ (forall algo,
        is_checksum_strict_ulint (srv_checksum_algorithm_value algo)
        = is_checksum_strict algo)
  /\ (forall n : Z, is_checksum_strict_ulint n = true <-> n = 1).
Proof.
  repeat (split; [reflexivity |]).
  split; [| split].
  - intros algo. split.
    + destruct algo; cbn; intros H; (reflexivity || discriminate H).
    + intros ->. reflexivity.
  - intros algo. reflexivity.
  - intros n. unfold is_checksum_strict_ulint. cbn. apply Z.eqb_eq.
Qed.

(** ** Buddy size classes *)

Lemma shl_u32_pow2 (a n : Z) :
  0 <= a -> 0 <= n -> a + n < 32 -> shl_u32 (2 ^ a) n = Some (2 ^ (a + n)).
Proof.
  intros Ha Hn Hlt. unfold shl_u32.
  assert (Hc : (0 <=? n) && (n <? 32) = true).
  { apply andb_true_iff. split; [apply Z.leb_le | apply Z.ltb_lt]; lia. }
  rewrite Hc. f_equal.
  rewrite Z.shiftl_mul_pow2, <- Z.pow_add_r by lia.
  apply wrap_small. split.
  - apply Z.pow_nonneg. lia.
  - apply Z.pow_lt_mono_r; lia.
Qed.

(** C6: for a page-size shift from the lowest buddy shift up to 31, the
    number of sizes is the difference of the two shifts, the low size is
    [2^low_shift], [BUF_BUDDY_HIGH] is the low size shifted left by the
    number of sizes and equals the page size [2^page_size_shift] exactly;
    with page-size shift 14 and low shift 9 there are 5 sizes and the high
    size is 16384. *)
Theorem buddy_size_classes (low_shift page_size_shift shift_bits : Z) :
  0 <= low_shift <= page_size_shift ->
  page_size_shift < 32 ->
  5 <= shift_bits ->
  BUF_BUDDY_SIZES low_shift page_size_shift shift_bits
  = page_size_shift - low_shift
  /\ BUF_BUDDY_LOW low_shift = Some (2 ^ low_shift)
  /\ BUF_BUDDY_HIGH low_shift page_size_shift shift_bits
     = shl_u32 (2 ^ low_shift)
         (BUF_BUDDY_SIZES low_shift page_size_shift shift_bits)
  /\ BUF_BUDDY_HIGH low_shift page_size_shift shift_bits
     = Some (2 ^ page_size_shift)
  /\ BUF_BUDDY_SIZES 9 14 shift_bits = 5
  /\ BUF_BUDDY_HIGH 9 14 shift_bits = Some 16384.
Proof.
  intros Hlow Hhigh Hw.
  assert (Hsz : forall lo hi, 0 <= lo <= hi -> hi < 32 ->
                  BUF_BUDDY_SIZES lo hi shift_bits = hi - lo).
  { intros lo hi H1 H2. unfold BUF_BUDDY_SIZES, BUF_BUDDY_LOW_SHIFT.
    apply (wrap_wide shift_bits 5); [lia |]. change (2 ^ 5) with 32. lia. }
  assert (Hlo : forall lo, 0 <= lo < 32 -> BUF_BUDDY_LOW lo = Some (2 ^ lo)).
  { intros lo H. unfold BUF_BUDDY_LOW, BUF_BUDDY_LOW_SHIFT.
    change 1 with (2 ^ 0) at 1. now rewrite shl_u32_pow2 by lia. }
  assert (Hhi : forall lo hi, 0 <= lo <= hi -> hi < 32 ->
                  BUF_BUDDY_HIGH lo hi shift_bits = Some (2 ^ hi)).
  { intros lo hi H1 H2. unfold BUF_BUDDY_HIGH.
    rewrite Hlo, Hsz by lia. rewrite shl_u32_pow2 by lia.
    do 2 f_equal. lia. }
  split; [now apply Hsz |].
  split; [apply Hlo; lia |].
  split; [unfold BUF_BUDDY_HIGH; rewrite Hlo by lia; reflexivity |].
  split; [now apply Hhi |].
  split; [rewrite Hsz by lia; reflexivity |].
  rewrite Hhi by lia. reflexivity.
Qed.

Lemma buddy_size_classes_witness :
  BUF_BUDDY_SIZES 10 14 64 = 14 - 10
  /\ BUF_BUDDY_LOW 10 = Some (2 ^ 10)
  /\ BUF_BUDDY_HIGH 10 14 64 = shl_u32 (2 ^ 10) (BUF_BUDDY_SIZES 10 14 64)
  /\ BUF_BUDDY_HIGH 10 14 64 = Some (2 ^ 14)
  /\ BUF_BUDDY_SIZES 9 14 64 = 5
  /\ BUF_BUDDY_HIGH 9 14 64 = Some 16384.
Proof. apply (buddy_size_classes 10 14 64); lia. Defined.

(** ** Mode-parameterised entry points *)

(** C9: whatever the four lock operations are, [acquire<true>] is
    [write_lock], [acquire<false>] is [read_lock], [release<true>] is
    [write_unlock] and [release<false>] is [read_unlock]. *)
Theorem acquire_release_dispatch
  (action : Type) (L : page_hash_latch action) :
  acquire true = write_lock
  /\ acquire false = read_lock
  /\ release true = write_unlock
  /\ release false = read_unlock.
Proof. repeat split. Qed.

(** The entry points of one thread's latch, on the holders model. *)
Example acquire_exclusive_of_thread (t : HybridLatch.thread) :
  acquire (L := HybridLatch.of_thread t) true []
  = Some [(t, RW_X_LATCH)]
  /\ release (L := HybridLatch.of_thread t) true [(t, RW_X_LATCH)] = Some []
  /\ acquire (L := HybridLatch.of_thread t) false [(t, RW_X_LATCH)] = None.
Proof.
  cbn. unfold HybridLatch.holder_eqb. cbn. now rewrite Nat.eqb_refl.
Qed.

(** ** Latch mode compatibility *)

Module HybridLatchFacts.
Import HybridLatch.

Lemma compatible_sym (m m' : rw_lock_type_t) :
  compatible m m' = compatible m' m.
Proof. now destruct m, m'. Qed.

Lemma grantable_spec (m : rw_lock_type_t) (l : latch) :
  grantable m l = true
  <-> acquirable m = true /\ forall h, In h l -> compatible m (snd h) = true.
Proof.
  unfold grantable. rewrite andb_true_iff, forallb_forall. reflexivity.
Qed.

Lemma request_granted (t : thread) (m : rw_lock_type_t) (l l' : latch) :
  request t m l = Some l' <-> grantable m l = true /\ l' = (t, m) :: l.
Proof.
  unfold request. destruct (grantable m l); split.
  - intros H. inversion H. now split.
  - intros [_ ->]. reflexivity.
  - discriminate.
  - intros [H _]. discriminate.
Qed.

Lemma request_blocked (t : thread) (m : rw_lock_type_t) (l : latch) :
  request t m l = None <-> grantable m l = false.
Proof. unfold request. destruct (grantable m l); split; congruence. Qed.

(** A release takes one holder away and leaves the others. *)
Lemma unlock_incl (t : thread) (m : rw_lock_type_t) (l l' : latch) :
  unlock t m l = Some l' -> forall h, In h l' -> In h l.
Proof.
  revert l'. induction l as [| h0 r IH]; intros l' H h Hin; cbn in H.
  - discriminate.
  - destruct (holder_eqb h0 (t, m)).
    + inversion H. subst. now right.
    + destruct (unlock t m r) as [r' |] eqn:E; [| discriminate].
      inversion H. subst. destruct Hin as [-> | Hin].
      * now left.
      * right. now apply (IH r').
Qed.

Lemma grantable_incl (m : rw_lock_type_t) (l l' : latch) :
  (forall h, In h l' -> In h l) ->
  grantable m l = true -> grantable m l' = true.
Proof.
  intros Hincl. rewrite !grantable_spec. intros [Ha Hc].
  split; [exact Ha |]. intros h Hin. apply Hc. now apply Hincl.
Qed.

Lemma unlock_coherent (t : thread) (m : rw_lock_type_t) (l l' : latch) :
  unlock t m l = Some l' -> coherent l = true -> coherent l' = true.
Proof.
  revert l'. induction l as [| h0 r IH]; intros l' H Hc; cbn in H.
  - discriminate.
  - cbn in Hc. apply andb_true_iff in Hc. destruct Hc as [Hg Hc].
    destruct (holder_eqb h0 (t, m)).
    + inversion H. now subst.
    + destruct (unlock t m r) as [r' |] eqn:E; [| discriminate].
      inversion H. subst. cbn. apply andb_true_iff. split.
      * apply (grantable_incl _ r); [| exact Hg].
        now apply (unlock_incl t m).
      * now apply IH.
Qed.

(** Grants and paired releases keep the holders pairwise compatible. *)
Lemma reachable_coherent (l : latch) : reachable l -> coherent l = true.
Proof.
  induction 1 as [| t m l l' _ IH Hreq | t m l l' _ IH Hrel].
  - reflexivity.
  - apply request_granted in Hreq. destruct Hreq as [Hg ->].
    cbn. now rewrite Hg, IH.
  - now apply (unlock_coherent t m l).
Qed.

(** Next to an SX holder there are only S holders. *)
Lemma coherent_beside_sx (l : latch) (t0 : thread) :
  coherent l = true -> In (t0, RW_SX_LATCH) l ->
  forall h, In h l -> compatible RW_S_LATCH (snd h) = true.
Proof.
  induction l as [| h0 r IH]; intros Hc Hin h Hh; [contradiction |].
  cbn in Hc. apply andb_true_iff in Hc. destruct Hc as [Hg Hc].
  apply grantable_spec in Hg. destruct Hg as [_ Hg].
  destruct Hin as [E0 | Hin0].
  - destruct Hh as [<- | Hh].
    + subst h0. reflexivity.
    + subst h0. cbn in Hg. specialize (Hg h Hh).
      destruct (snd h); (reflexivity || discriminate Hg).
  - destruct Hh as [<- | Hh].
    + specialize (Hg _ Hin0). cbn in Hg.
      destruct (snd h0); (reflexivity || discriminate Hg).
    + now apply IH.
Qed.

Lemma request_all_shared (ts : list thread) (l : latch) :
  (forall h, In h l -> compatible RW_S_LATCH (snd h) = true) ->
  request_all RW_S_LATCH ts l
  = Some (rev (map (fun t => (t, RW_S_LATCH)) ts) ++ l).
Proof.
  revert l. induction ts as [| t ts IH]; intros l Hl; [reflexivity |].
  cbn [request_all].
  assert (Hreq : request t RW_S_LATCH l = Some ((t, RW_S_LATCH) :: l)).
  { apply request_granted. split; [| reflexivity].
    apply grantable_spec. now split. }
  rewrite Hreq, IH.
  - cbn [map rev]. now rewrite <- app_assoc.
  - intros h [<- | Hin]; [reflexivity | now apply Hl].
Qed.

Lemma holder_eqb_refl (h : thread * rw_lock_type_t) : holder_eqb h h = true.
Proof. unfold holder_eqb. now rewrite Nat.eqb_refl, Z.eqb_refl. Qed.

Lemma unlock_all_prefix (l1 l2 : latch) : unlock_all l1 (l1 ++ l2) = Some l2.
Proof.
  induction l1 as [| h r IH]; [reflexivity |].
  cbn [unlock_all app unlock].
  replace (fst h, snd h) with h by now destruct h.
  now rewrite holder_eqb_refl.
Qed.

Lemma exclusive_blocked (t : thread) (l : latch) :
  l <> [] -> request t RW_X_LATCH l = None.
Proof. destruct l; [congruence | reflexivity]. Qed.

End HybridLatchFacts.

(** C7: in every latch state that grants and paired releases can produce:
    any number of threads requesting S on a latch whose holders are S or
    SX are all granted; an X request is blocked exactly while some holder
    is outstanding, so it stays blocked after any part of the holders has
    released and is granted once all have, and then every further request
    is blocked; while an SX holder is active, SX and X requests are
    blocked and an S request is granted. *)
Theorem hybrid_latch_modes (l : HybridLatch.latch) :
  HybridLatch.reachable l ->
  (forall ts,
      (forall h, In h l -> snd h = RW_S_LATCH \/ snd h = RW_SX_LATCH) ->
      HybridLatch.request_all RW_S_LATCH ts l
      = Some (rev (map (fun t => (t, RW_S_LATCH)) ts) ++ l))
  /\ (forall t, HybridLatch.request t RW_X_LATCH l = None <-> l <> [])
  /\ (forall t released waiting,
        l = released ++ waiting ->
        HybridLatch.unlock_all released l = Some waiting
        /\ (waiting <> [] ->
            HybridLatch.request t RW_X_LATCH waiting = None))
  /\ (forall t,
        HybridLatch.unlock_all l l = Some []
        /\ HybridLatch.request t RW_X_LATCH [] = Some [(t, RW_X_LATCH)]
        /\ forall t' m,
            HybridLatch.request t' m [(t, RW_X_LATCH)] = None)
  /\ (HybridLatch.holds RW_SX_LATCH l ->
      forall t,
        HybridLatch.request t RW_SX_LATCH l = None
        /\ HybridLatch.request t RW_X_LATCH l = None
        /\ HybridLatch.request t RW_S_LATCH l = Some ((t, RW_S_LATCH) :: l)).
Proof.
  intros Hreach.
  split.
  { intros ts Hl. apply HybridLatchFacts.request_all_shared.
    intros h Hin. destruct (Hl h Hin) as [-> | ->]; reflexivity. }
  split.
  { intros t. split.
    - intros H ->. discriminate H.
    - apply HybridLatchFacts.exclusive_blocked. }
  split.
  { intros t released waiting ->. split.
    - apply HybridLatchFacts.unlock_all_prefix.
    - apply HybridLatchFacts.exclusive_blocked. }
  split.
  { intros t. split.
    - rewrite <- (app_nil_r l) at 2.
      apply HybridLatchFacts.unlock_all_prefix.
    - split; [reflexivity |]. intros t' m. now destruct m. }
  intros [t0 Hsx] t.
  pose proof (HybridLatchFacts.reachable_coherent l Hreach) as Hc.
  pose proof (HybridLatchFacts.coherent_beside_sx l t0 Hc Hsx) as Hs.
  split.
  { apply HybridLatchFacts.request_blocked.
    destruct (HybridLatch.grantable RW_SX_LATCH l) eqn:E; [| reflexivity].
    apply HybridLatchFacts.grantable_spec in E. destruct E as [_ E].
    specialize (E _ Hsx). discriminate E. }
  split.
  { apply HybridLatchFacts.exclusive_blocked. intros ->. contradiction. }
  apply HybridLatchFacts.request_granted. split; [| reflexivity].
  apply HybridLatchFacts.grantable_spec. now split.
Qed.

Lemma hybrid_latch_modes_witness :
  let l := [(2%nat, RW_SX_LATCH); (1%nat, RW_S_LATCH)] in
  HybridLatch.reachable l
  /\ HybridLatch.request 3%nat RW_SX_LATCH l = None
  /\ HybridLatch.request 3%nat RW_X_LATCH l = None
  /\ HybridLatch.request 3%nat RW_S_LATCH l
     = Some ((3%nat, RW_S_LATCH) :: l).
Proof.
  cbv zeta.
  assert (R : HybridLatch.reachable
                [(2%nat, RW_SX_LATCH); (1%nat, RW_S_LATCH)]).
  { apply (HybridLatch.reachable_grant 2%nat RW_SX_LATCH
             [(1%nat, RW_S_LATCH)]); [| reflexivity].
    apply (HybridLatch.reachable_grant 1%nat RW_S_LATCH []);
      [| reflexivity].
    apply HybridLatch.reachable_free. }
  split; [exact R |].
  apply (hybrid_latch_modes _ R).
  exists 2%nat. now left.
Defined.

(** * Further properties of the header *)

(** ** Offsets: [operator+] and [operator-] *)

Lemma lnot_u32 (i : Z) : is_u32 i -> u32 (Z.lnot i) = 0xFFFFFFFF - i.
Proof.
  unfold is_u32, u32, wrap. intros Hi.
  replace (Z.lnot i) with (0xFFFFFFFF - i + -1 * 2 ^ 32)
    by (unfold Z.lnot; lia).
  rewrite Z.mod_add by lia. apply Z.mod_small. lia.
Qed.

Lemma add_in_contract (b : build) (id : page_id_t) (i : Z) :
  page_id_wf id -> is_u32 i -> PageId.page_no id + i < 0xFFFFFFFF ->
  PageId.add b id i
  = Ok (mk_page_id (PageId.space id * 2 ^ 32 + (PageId.page_no id + i))).
Proof.
  intros Hwf Hi Hp. unfold PageId.add. rewrite lnot_u32 by exact Hi.
  assert (Hc : (PageId.page_no id <? 0xFFFFFFFF - i) = true)
    by (apply Z.ltb_lt; lia).
  rewrite Hc, ut_ad_true. cbn [bind]. unfold PageId.of_raw. do 2 f_equal.
  rewrite (m_id_fields id Hwf) at 1.
  pose proof (space_range id) as Hs. pose proof (page_no_range id) as Hr.
  unfold is_u32 in *. unfold u64. rewrite wrap_small; [lia |].
  change (2 ^ 64) with (2 ^ 32 * 2 ^ 32). nia.
Qed.

Lemma sub_in_contract (b : build) (id : page_id_t) (i : Z) :
  page_id_wf id -> is_u32 i -> i <= PageId.page_no id ->
  PageId.sub b id i
  = Ok (mk_page_id (PageId.space id * 2 ^ 32 + (PageId.page_no id - i))).
Proof.
  intros Hwf Hi Hp. unfold PageId.sub.
  assert (Hc : (PageId.page_no id >=? i) = true).
  { rewrite Z.geb_leb. apply Z.leb_le. lia. }
  rewrite Hc, ut_ad_true. cbn [bind]. unfold PageId.of_raw. do 2 f_equal.
  rewrite (m_id_fields id Hwf) at 1.
  pose proof (space_range id) as Hs. pose proof (page_no_range id) as Hr.
  unfold is_u32 in *. unfold u64. rewrite wrap_small; [lia |].
  change (2 ^ 64) with (2 ^ 32 * 2 ^ 32). nia.
Qed.

Lemma wf_of_fields (s p : Z) :
  is_u32 s -> is_u32 p ->
  page_id_wf (mk_page_id (s * 2 ^ 32 + p)).
Proof. intros Hs Hp. now apply sum_is_u64. Qed.

(** X1: within its contract ([page_no() + i] below 0xFFFFFFFF), [id + i]
    succeeds in either build, keeps the tablespace id and adds [i] to the
    page number. *)
Theorem add_offset (b : build) (id : page_id_t) (i : Z) :
  page_id_wf id -> is_u32 i -> PageId.page_no id + i < 0xFFFFFFFF ->
  exists id',
    PageId.add b id i = Ok id'
    /\ page_id_wf id'
    /\ PageId.space id' = PageId.space id
    /\ PageId.page_no id' = PageId.page_no id + i.
Proof.
  intros Hwf Hi Hp.
  pose proof (space_range id) as Hs. pose proof (page_no_range id) as Hr.
  assert (Hp' : is_u32 (PageId.page_no id + i)) by (unfold is_u32 in *; lia).
  eexists. split; [now apply add_in_contract |].
  split; [now apply wf_of_fields |]. now apply fields_of_sum.
Qed.

Lemma add_offset_witness :
  exists id',
    PageId.add Debug (mk_page_id 0x0000000300000005) 10 = Ok id'
    /\ page_id_wf id'
    /\ PageId.space id' = PageId.space (mk_page_id 0x0000000300000005)
    /\ PageId.page_no id'
       = PageId.page_no (mk_page_id 0x0000000300000005) + 10.
Proof.
  apply (add_offset Debug (mk_page_id 0x0000000300000005) 10).
  - unfold page_id_wf, is_u64. cbn [m_id]. lia.
  - unfold is_u32. lia.
  - vm_compute. reflexivity.
Defined.

(** X2: within its contract ([i] not above [page_no()]), [id - i] succeeds
    in either build, keeps the tablespace id and takes [i] off the page
    number. *)
Theorem sub_offset (b : build) (id : page_id_t) (i : Z) :
  page_id_wf id -> is_u32 i -> i <= PageId.page_no id ->
  exists id',
    PageId.sub b id i = Ok id'
    /\ page_id_wf id'
    /\ PageId.space id' = PageId.space id
    /\ PageId.page_no id' = PageId.page_no id - i.
Proof.
  intros Hwf Hi Hp.
  pose proof (space_range id) as Hs. pose proof (page_no_range id) as Hr.
  assert (Hp' : is_u32 (PageId.page_no id - i)) by (unfold is_u32 in *; lia).
  eexists. split; [now apply sub_in_contract |].
  split; [now apply wf_of_fields |]. now apply fields_of_sum.
Qed.

Lemma sub_offset_witness :
  exists id',
    PageId.sub Debug (mk_page_id 0x0000000300000005) 5 = Ok id'
    /\ page_id_wf id'
    /\ PageId.space id' = PageId.space (mk_page_id 0x0000000300000005)
    /\ PageId.page_no id'
       = PageId.page_no (mk_page_id 0x0000000300000005) - 5.
Proof.
  apply (sub_offset Debug (mk_page_id 0x0000000300000005) 5).
  - unfold page_id_wf, is_u64. cbn [m_id]. lia.
  - unfold is_u32. lia.
  - vm_compute. discriminate.
Defined.

(** X3: with the assertions compiled in, [id + i] fails exactly when
    [page_no() + i] reaches 0xFFFFFFFF, so the last page number is never
    the result of an addition and [id + 0] fails on it, and [id - i]
    fails exactly when [i] exceeds [page_no()]. *)
Theorem offset_assertions (id : page_id_t) (i : Z) :
  is_u32 i ->
  (PageId.add Debug id i = AssertionFailure
   <-> 0xFFFFFFFF <= PageId.page_no id + i)
  /\ (PageId.sub Debug id i = AssertionFailure <-> PageId.page_no id < i)
  /\ (forall id', PageId.add Debug id i = Ok id' ->
        page_id_wf id -> PageId.page_no id' < 0xFFFFFFFF)
  /\ (PageId.page_no id = 0xFFFFFFFF ->
      PageId.add Debug id 0 = AssertionFailure).
Proof.
  intros Hi.
  assert (Hadd : PageId.add Debug id i = AssertionFailure
                 <-> 0xFFFFFFFF <= PageId.page_no id + i).
  { unfold PageId.add. rewrite lnot_u32 by exact Hi.
    destruct (Z.ltb_spec (PageId.page_no id) (0xFFFFFFFF - i)) as [H | H];
      cbn [ut_ad bind]; split; intros H'; (discriminate H' || lia || trivial). }
  split; [exact Hadd |]. split.
  { unfold PageId.sub. rewrite Z.geb_leb.
    destruct (Z.leb_spec i (PageId.page_no id)) as [H | H];
      cbn [ut_ad bind]; split; intros H'; (discriminate H' || lia || trivial). }
  split.
  { intros id' H Hwf.
    destruct (Z.lt_ge_cases (PageId.page_no id + i) 0xFFFFFFFF) as [Hlt | Hge].
    - rewrite add_in_contract in H by assumption.
      apply Ok_inj in H. subst id'.
      pose proof (space_range id) as Hs. pose proof (page_no_range id) as Hr.
      assert (Hp' : is_u32 (PageId.page_no id + i))
        by (unfold is_u32 in *; lia).
      destruct (fields_of_sum _ _ Hs Hp') as [_ Ep]. rewrite Ep. exact Hlt.
    - apply Hadd in Hge. rewrite Hge in H. discriminate H. }
  intros Hp. unfold PageId.add. rewrite Hp. reflexivity.
Qed.

Lemma offset_assertions_witness :
  PageId.add Debug (mk_page_id 0x00000003FFFFFFF0) 15 = AssertionFailure
  <-> 0xFFFFFFFF <= PageId.page_no (mk_page_id 0x00000003FFFFFFF0) + 15.
Proof.
  apply (offset_assertions (mk_page_id 0x00000003FFFFFFF0) 15).
  unfold is_u32. lia.
Defined.

(** X4: [(id + i) - i] is [id] whenever the addition is within its
    contract, in either build; with the assertions compiled out the two
    operations undo each other on every identifier and every offset, in
    both orders, even when the page number wraps in between. *)
Theorem add_sub_roundtrip (id : page_id_t) (i : Z) :
  page_id_wf id -> is_u32 i ->
  (PageId.page_no id + i < 0xFFFFFFFF ->
   forall b, exists id',
     PageId.add b id i = Ok id' /\ PageId.sub b id' i = Ok id)
  /\ (exists id',
        PageId.add Release id i = Ok id'
        /\ page_id_wf id'
        /\ PageId.sub Release id' i = Ok id)
  /\ (exists id',
        PageId.sub Release id i = Ok id'
        /\ page_id_wf id'
        /\ PageId.add Release id' i = Ok id).
Proof.
  intros Hwf Hi.
  pose proof (space_range id) as Hs. pose proof (page_no_range id) as Hr.
  assert (Eid : mk_page_id (m_id id) = id) by now destruct id.
  split.
  { intros Hp b.
    assert (Hp' : is_u32 (PageId.page_no id + i))
      by (unfold is_u32 in *; lia).
    destruct (fields_of_sum _ _ Hs Hp') as [Es Ep].
    eexists. split; [now apply add_in_contract |].
    rewrite sub_in_contract.
    - rewrite Es, Ep. rewrite <- Eid at 3. rewrite (m_id_fields id Hwf).
      do 2 f_equal. lia.
    - now apply wf_of_fields.
    - exact Hi.
    - rewrite Ep. unfold is_u32 in *. lia. }
  split.
  { exists (mk_page_id (u64 (m_id id + i))). split; [reflexivity |].
    split; [apply wrap_range; lia |].
    unfold PageId.sub, PageId.of_raw, u64, wrap. cbn [ut_ad bind m_id].
    rewrite Zminus_mod_idemp_l.
    replace (m_id id + i - i) with (m_id id) by lia.
    rewrite Z.mod_small by exact Hwf. now rewrite Eid. }
  exists (mk_page_id (u64 (m_id id - i))). split; [reflexivity |].
  split; [apply wrap_range; lia |].
  unfold PageId.add, PageId.of_raw, u64, wrap. cbn [ut_ad bind m_id].
  rewrite Zplus_mod_idemp_l.
  replace (m_id id - i + i) with (m_id id) by lia.
  rewrite Z.mod_small by exact Hwf. now rewrite Eid.
Qed.

Lemma add_sub_roundtrip_witness :
  exists id',
    PageId.add Release (mk_page_id 0x00000003FFFFFFFF) 1 = Ok id'
    /\ page_id_wf id'
    /\ PageId.sub Release id' 1 = Ok (mk_page_id 0x00000003FFFFFFFF).
Proof.
  apply (add_sub_roundtrip (mk_page_id 0x00000003FFFFFFFF) 1).
  - unfold page_id_wf, is_u64. cbn [m_id]. lia.
  - unfold is_u32. lia.
Defined.

(** X5: [--id] is [id - 1] on every identifier in either build; [++id]
    is [id + 1] with the assertions compiled out and, with them compiled
    in, as long as the page number is below 0xFFFFFFFE; at page number
    0xFFFFFFFE the debug build lets [++id] through and fails [id + 1]. *)
Theorem step_is_unit_offset (id : page_id_t) :
  (forall b, PageId.pre_dec b id = PageId.sub b id 1)
  /\ PageId.pre_inc Release id = PageId.add Release id 1
  /\ (PageId.page_no id <> 0xFFFFFFFE ->
      PageId.pre_inc Debug id = PageId.add Debug id 1)
  /\ (PageId.page_no id = 0xFFFFFFFE ->
      PageId.pre_inc Debug id = Ok (mk_page_id (u64 (m_id id + 1)))
      /\ PageId.add Debug id 1 = AssertionFailure).
Proof.
  pose proof (page_no_range id) as Hr. unfold is_u32 in Hr.
  split.
  { intros b. unfold PageId.pre_dec, PageId.sub, PageId.of_raw.
    rewrite Z.geb_leb.
    destruct (Z.eqb_spec (PageId.page_no id) 0) as [E | E],
      (Z.leb_spec 1 (PageId.page_no id)) as [L | L];
      try lia; reflexivity. }
  split; [reflexivity |].
  assert (Hnot : u32 (Z.lnot 1) = 0xFFFFFFFE) by (vm_compute; reflexivity).
  split.
  { intros Hp. unfold PageId.pre_inc, PageId.add, PageId.of_raw.
    rewrite Hnot.
    destruct (Z.ltb_spec (PageId.page_no id) 0xFFFFFFFF) as [L | L],
      (Z.ltb_spec (PageId.page_no id) 0xFFFFFFFE) as [L' | L'];
      try lia; reflexivity. }
  intros Hp. unfold PageId.pre_inc, PageId.add. rewrite Hnot, Hp.
  split; reflexivity.
Qed.

Lemma step_is_unit_offset_witness :
  PageId.pre_inc Debug (mk_page_id 0x0000000300000005)
  = PageId.add Debug (mk_page_id 0x0000000300000005) 1.
Proof.
  apply (proj1 (proj2 (proj2
           (step_is_unit_offset (mk_page_id 0x0000000300000005))))).
  vm_compute. intros H. discriminate H.
Defined.

(** X6: on a page number below 0xFFFFFFFF, [++id] is the immediate
    successor of [id] in the order of the comparison operators: it is
    greater than [id] and not greater than any identifier greater than
    [id].  An in-contract offset keeps the order of two identifiers. *)
Theorem next_is_successor (id : page_id_t) :
  page_id_wf id -> PageId.page_no id < 0xFFFFFFFF ->
  forall b, exists id',
    PageId.pre_inc b id = Ok id'
    /\ PageId.lt id id' = true
    /\ (forall x, PageId.lt id x = true -> PageId.le id' x = true)
    /\ (forall a i a' id'',
          page_id_wf a -> is_u32 i ->
          PageId.page_no a + i < 0xFFFFFFFF ->
          PageId.page_no id + i < 0xFFFFFFFF ->
          PageId.add b a i = Ok a' -> PageId.add b id i = Ok id'' ->
          PageId.lt a id = PageId.lt a' id'').
Proof.
  intros Hwf Hp b.
  assert (Hsum : forall x k, page_id_wf x ->
            PageId.space x * 2 ^ 32 + (PageId.page_no x + k) = m_id x + k).
  { intros x k Hx. rewrite (m_id_fields x Hx). lia. }
  eexists. split; [now apply pre_inc_in_contract |].
  unfold PageId.lt, PageId.le. cbn [m_id]. rewrite Hsum by exact Hwf.
  split; [apply Z.ltb_lt; lia |]. split.
  { intros x Hx. apply Z.ltb_lt in Hx. apply Z.leb_le. lia. }
  intros a i a' id'' Ha Hi Hpa Hpi Ea Ei.
  rewrite add_in_contract in Ea, Ei by assumption.
  apply Ok_inj in Ea, Ei. subst a' id''. cbn [m_id].
  rewrite !Hsum by assumption.
  destruct (Z.ltb_spec (m_id a) (m_id id)),
    (Z.ltb_spec (m_id a + i) (m_id id + i)); try lia; reflexivity.
Qed.

Lemma next_is_successor_witness :
  exists id',
    PageId.pre_inc Debug (mk_page_id 0x0000000300000005) = Ok id'
    /\ PageId.lt (mk_page_id 0x0000000300000005) id' = true.
Proof.
  destruct (next_is_successor (mk_page_id 0x0000000300000005)) with (b := Debug)
    as [id' [E [L _]]].
  - unfold page_id_wf, is_u64. cbn [m_id]. lia.
  - vm_compute. reflexivity.
  - exists id'. now split.
Defined.

(** X7: offsets add up: within the contract of the whole move,
    [(id + i) + j] is [id + (i + j)]. *)
Theorem add_add (b : build) (id : page_id_t) (i j : Z) :
  page_id_wf id -> is_u32 i -> is_u32 j ->
  PageId.page_no id + i + j < 0xFFFFFFFF ->
  exists mid,
    PageId.add b id i = Ok mid
    /\ PageId.add b mid j = PageId.add b id (i + j).
Proof.
  intros Hwf Hi Hj Hp.
  pose proof (space_range id) as Hs. pose proof (page_no_range id) as Hr.
  assert (Hp' : is_u32 (PageId.page_no id + i))
    by (unfold is_u32 in *; lia).
  destruct (fields_of_sum _ _ Hs Hp') as [Es Ep].
  eexists. split; [apply add_in_contract; unfold is_u32 in *; auto; lia |].
  rewrite !add_in_contract; try assumption.
  - rewrite Es, Ep. do 2 f_equal. lia.
  - unfold is_u32 in *. lia.
  - lia.
  - now apply wf_of_fields.
  - rewrite Ep. lia.
Qed.

Lemma add_add_witness :
  exists mid,
    PageId.add Debug (mk_page_id 0x0000000300000005) 10 = Ok mid
    /\ PageId.add Debug mid 20
       = PageId.add Debug (mk_page_id 0x0000000300000005) (10 + 20).
Proof.
  apply (add_add Debug (mk_page_id 0x0000000300000005) 10 20).
  - unfold page_id_wf, is_u64. cbn [m_id]. lia.
  - unfold is_u32. lia.
  - unfold is_u32. lia.
  - vm_compute. reflexivity.
Defined.

(** ** Constructor and [set_page_no] *)

Lemma set_page_no_sum (id : page_id_t) (p : Z) :
  page_id_wf id -> is_u32 p ->
  PageId.set_page_no id p = mk_page_id (PageId.space id * 2 ^ 32 + p).
Proof.
  intros Hwf Hp. unfold PageId.set_page_no. f_equal.
  rewrite mask_upper_field by exact Hwf.
  rewrite lor_fields by exact Hp.
  rewrite (m_id_fields id Hwf) at 1.
  pose proof (page_no_range id) as Hr. unfold is_u32 in Hr.
  rewrite Z.div_add_l by lia. rewrite Z.div_small by exact Hr. lia.
Qed.

(** X8: [set_page_no(p)] gives the identifier that the constructor builds
    from [space()] and [p]; a second [set_page_no] overrides the first,
    and setting the page number an identifier already has changes
    nothing. *)
Theorem set_page_no_as_make (id : page_id_t) (p q : Z) :
  page_id_wf id -> is_u32 p -> is_u32 q ->
  (forall b, PageId.make b (PageId.space id) p = Ok (PageId.set_page_no id p))
  /\ PageId.set_page_no (PageId.set_page_no id p) q = PageId.set_page_no id q
  /\ PageId.set_page_no id (PageId.page_no id) = id.
Proof.
  intros Hwf Hp Hq.
  pose proof (space_range id) as Hs. pose proof (page_no_range id) as Hr.
  destruct (fields_of_sum _ _ Hs Hp) as [Es _].
  rewrite (set_page_no_sum id p), (set_page_no_sum id q) by assumption.
  rewrite (set_page_no_sum id (PageId.page_no id)) by assumption.
  rewrite set_page_no_sum by (assumption || now apply wf_of_fields).
  rewrite Es.
  split; [intros b; now apply make_sum |].
  split; [reflexivity |].
  rewrite <- (m_id_fields id Hwf). now destruct id.
Qed.

Lemma set_page_no_as_make_witness :
  PageId.set_page_no
    (PageId.set_page_no (mk_page_id 0x0000000300000005) 7) 9
  = PageId.set_page_no (mk_page_id 0x0000000300000005) 9.
Proof.
  apply (set_page_no_as_make (mk_page_id 0x0000000300000005) 7 9).
  - unfold page_id_wf, is_u64. cbn [m_id]. lia.
  - unfold is_u32. lia.
  - unfold is_u32. lia.
Defined.

(** X9: with the assertions compiled in, the constructor fails exactly
    when the tablespace argument is above 0xFFFFFFFF; with them compiled
    out it accepts any 64-bit argument and keeps its low 32 bits only, so
    arguments that differ by a multiple of 2^32 build the same
    identifier. *)
Theorem make_out_of_contract (tablespace page_no : Z) :
  is_u64 tablespace -> is_u32 page_no ->
  (PageId.make Debug tablespace page_no = AssertionFailure
   <-> 0xFFFFFFFF < tablespace)
  /\ (exists id,
        PageId.make Release tablespace page_no = Ok id
        /\ page_id_wf id
        /\ PageId.space id = tablespace mod 2 ^ 32
        /\ PageId.page_no id = page_no)
  /\ PageId.make Release tablespace page_no
     = PageId.make Release (tablespace mod 2 ^ 32) page_no.
Proof.
  intros Hs Hp.
  assert (Hr : is_u32 (tablespace mod 2 ^ 32)).
  { unfold is_u32. apply Z.mod_pos_bound. lia. }
  assert (E : PageId.make Release tablespace page_no
              = Ok (mk_page_id (tablespace mod 2 ^ 32 * 2 ^ 32 + page_no))).
  { unfold PageId.make. cbn [ut_ad bind]. do 2 f_equal.
    unfold u64. rewrite (wrap_small 64 tablespace) by exact Hs.
    rewrite Z.shiftl_mul_pow2 by lia. unfold wrap.
    change (2 ^ 64) with (2 ^ 32 * 2 ^ 32).
    rewrite Z.mul_mod_distr_r by lia.
    now apply lor_fields. }
  split.
  { unfold PageId.make.
    destruct (Z.leb_spec tablespace 0xFFFFFFFF) as [L | L];
      cbn [ut_ad bind]; split; intros H; (discriminate H || lia || trivial). }
  split.
  { eexists. split; [exact E |]. split; [now apply wf_of_fields |].
    now apply fields_of_sum. }
  rewrite E. symmetry. now apply make_sum.
Qed.

Lemma make_out_of_contract_witness :
  PageId.make Release 0x100000003 7
  = PageId.make Release (0x100000003 mod 2 ^ 32) 7.
Proof.
  apply (make_out_of_contract 0x100000003 7).
  - unfold is_u64. lia.
  - unfold is_u32. lia.
Defined.

(** X10: identifiers are unique keys: two in-contract constructions
    compare equal exactly when both the tablespace ids and the page
    numbers are the same. *)
Theorem make_injective (b : build) (sA pA sB pB : Z) :
  is_u32 sA -> is_u32 pA -> is_u32 sB -> is_u32 pB ->
  exists ia ib,
    PageId.make b sA pA = Ok ia
    /\ PageId.make b sB pB = Ok ib
    /\ (PageId.eq ia ib = true <-> sA = sB /\ pA = pB)
    /\ (PageId.ne ia ib = true <-> sA <> sB \/ pA <> pB).
Proof.
  intros HsA HpA HsB HpB.
  exists (mk_page_id (sA * 2 ^ 32 + pA)), (mk_page_id (sB * 2 ^ 32 + pB)).
  split; [now apply make_sum |]. split; [now apply make_sum |].
  unfold PageId.eq, PageId.ne. cbn [m_id].
  rewrite negb_true_iff, Z.eqb_neq, Z.eqb_eq.
  unfold is_u32 in *. change (2 ^ 32) with 4294967296 in *. lia.
Qed.

Lemma make_injective_witness :
  exists ia ib,
    PageId.make Debug 3 5 = Ok ia
    /\ PageId.make Debug 3 6 = Ok ib
    /\ (PageId.eq ia ib = true <-> 3 = 3 /\ 5 = 6)
    /\ (PageId.ne ia ib = true <-> 3 <> 3 \/ 5 <> 6).
Proof. apply (make_injective Debug 3 5 3 6); unfold is_u32; lia. Defined.

(** ** Fold value *)

Lemma fold_plain (ulint_bits : Z) (id : page_id_t) :
  32 <= ulint_bits ->
  PageId.fold ulint_bits id
  = (PageId.space id * 1048577 + PageId.page_no id) mod 4294967296.
Proof.
  intros Hw. rewrite fold_mod by exact Hw.
  rewrite Z.shiftl_mul_pow2 by lia.
  change (2 ^ 20) with 1048576. change (2 ^ 32) with 4294967296.
  f_equal. lia.
Qed.

(** X11: the fold value is below 2^32; within one tablespace it is
    injective in the page number, and stepping to the next page adds one
    to it modulo 2^32. *)
Theorem fold_within_tablespace (ulint_bits : Z) (a b : page_id_t) :
  32 <= ulint_bits ->
  0 <= PageId.fold ulint_bits a < 2 ^ 32
  /\ (PageId.space a = PageId.space b ->
      PageId.fold ulint_bits a = PageId.fold ulint_bits b ->
      PageId.page_no a = PageId.page_no b)
  /\ (page_id_wf a -> PageId.page_no a < 0xFFFFFFFF ->
      forall bld, exists a',
        PageId.pre_inc bld a = Ok a'
        /\ PageId.fold ulint_bits a'
           = (PageId.fold ulint_bits a + 1) mod 2 ^ 32).
Proof.
  intros Hw.
  pose proof (space_range a) as Hsa. pose proof (page_no_range a) as Hpa.
  pose proof (page_no_range b) as Hpb.
  split.
  { rewrite fold_mod by exact Hw. apply Z.mod_pos_bound. lia. }
  split.
  { intros Es. rewrite !fold_plain by exact Hw. rewrite <- Es.
    set (c := PageId.space a * 1048577). intros E.
    pose proof (Z.div_mod (c + PageId.page_no a) 4294967296) as Da.
    pose proof (Z.div_mod (c + PageId.page_no b) 4294967296) as Db.
    unfold is_u32 in *. change (2 ^ 32) with 4294967296 in *.
    rewrite E in Da. lia. }
  intros Hwf Hp bld.
  assert (Hp' : is_u32 (PageId.page_no a + 1)) by (unfold is_u32 in *; lia).
  destruct (fields_of_sum _ _ Hsa Hp') as [Es Ep].
  eexists. split; [now apply pre_inc_in_contract |].
  rewrite !fold_plain by exact Hw. rewrite Es, Ep.
  change (2 ^ 32) with 4294967296.
  rewrite Z.add_mod_idemp_l by lia. f_equal. lia.
Qed.

Lemma fold_within_tablespace_witness :
  0 <= PageId.fold 64 (mk_page_id 0x0000000300000005) < 2 ^ 32.
Proof.
  apply (fold_within_tablespace 64 (mk_page_id 0x0000000300000005)
           (mk_page_id 0x0000000300000006)).
  lia.
Defined.

(** X12: the fold value is not injective across tablespaces: moving to the
    next tablespace and 2^20 + 1 pages down gives the same fold value. *)
Theorem fold_collision (ulint_bits : Z) (a b : page_id_t) :
  32 <= ulint_bits ->
  PageId.space b = PageId.space a + 1 ->
  PageId.page_no a = PageId.page_no b + 2 ^ 20 + 1 ->
  PageId.fold ulint_bits a = PageId.fold ulint_bits b
  /\ PageId.eq a b = false.
Proof.
  intros Hw Es Ep. split.
  - rewrite !fold_plain by exact Hw. rewrite Es, Ep. f_equal.
    change (2 ^ 20) with 1048576. lia.
  - unfold PageId.eq. apply Z.eqb_neq. intros E.
    unfold PageId.space in Es. rewrite E in Es. lia.
Qed.

Lemma fold_collision_witness :
  PageId.fold 64 (mk_page_id 0x0000000300100001)
  = PageId.fold 64 (mk_page_id 0x0000000400000000)
  /\ PageId.eq (mk_page_id 0x0000000300100001)
       (mk_page_id 0x0000000400000000) = false.
Proof.
  apply (fold_collision 64 (mk_page_id 0x0000000300100001)
           (mk_page_id 0x0000000400000000)).
  - lia.
  - vm_compute. reflexivity.
  - vm_compute. reflexivity.
Defined.

(** ** Buddy size ladder *)

(** X13: for shifts with [low_shift <= page_size_shift <= max_shift < 32]
    the number of buddy sizes is not above [BUF_BUDDY_SIZES_MAX], and
    shifting [BUF_BUDDY_LOW] by any class index up to [BUF_BUDDY_SIZES] is
    defined, gives [2^(low_shift + k)], and that size divides and does not
    exceed [BUF_BUDDY_HIGH]. *)
Theorem buddy_size_ladder (low_shift page_size_shift max_shift shift_bits : Z) :
  0 <= low_shift <= page_size_shift ->
  page_size_shift <= max_shift < 32 ->
  5 <= shift_bits ->
  0 <= BUF_BUDDY_SIZES low_shift page_size_shift shift_bits
    <= BUF_BUDDY_SIZES_MAX low_shift max_shift shift_bits
  /\ exists low high,
      BUF_BUDDY_LOW low_shift = Some low
      /\ BUF_BUDDY_HIGH low_shift page_size_shift shift_bits = Some high
      /\ high = low * 2 ^ BUF_BUDDY_SIZES low_shift page_size_shift shift_bits
      /\ forall k,
          0 <= k <= BUF_BUDDY_SIZES low_shift page_size_shift shift_bits ->
          shl_u32 low k = Some (2 ^ (low_shift + k))
          /\ 2 ^ (low_shift + k) <= high
          /\ (2 ^ (low_shift + k) | high).
Proof.
  intros Hlow Hmax Hw.
  assert (Hsz : forall lo hi, 0 <= lo <= hi -> hi < 32 ->
                  wrap shift_bits (hi - lo) = hi - lo).
  { intros lo hi H1 H2. apply (wrap_wide shift_bits 5); [lia |].
    change (2 ^ 5) with 32. lia. }
  unfold BUF_BUDDY_SIZES, BUF_BUDDY_SIZES_MAX, BUF_BUDDY_HIGH,
    BUF_BUDDY_LOW, BUF_BUDDY_SIZES, BUF_BUDDY_LOW_SHIFT.
  rewrite !Hsz by lia. split; [lia |].
  change 1 with (2 ^ 0) at 1 2. rewrite shl_u32_pow2 by lia.
  rewrite Z.add_0_l.
  exists (2 ^ low_shift), (2 ^ page_size_shift).
  split; [reflexivity |]. split.
  { rewrite shl_u32_pow2 by lia. do 2 f_equal. lia. }
  split.
  { rewrite <- Z.pow_add_r by lia. f_equal. lia. }
  intros k Hk. split; [apply shl_u32_pow2; lia |]. split.
  - apply Z.pow_le_mono_r; lia.
  - exists (2 ^ (page_size_shift - (low_shift + k))).
    rewrite <- Z.pow_add_r by lia. f_equal. lia.
Qed.

Lemma buddy_size_ladder_witness :
  0 <= BUF_BUDDY_SIZES 10 14 64 <= BUF_BUDDY_SIZES_MAX 10 16 64
  /\ exists low high,
      BUF_BUDDY_LOW 10 = Some low
      /\ BUF_BUDDY_HIGH 10 14 64 = Some high
      /\ high = low * 2 ^ BUF_BUDDY_SIZES 10 14 64
      /\ forall k,
          0 <= k <= BUF_BUDDY_SIZES 10 14 64 ->
          shl_u32 low k = Some (2 ^ (10 + k))
          /\ 2 ^ (10 + k) <= high
          /\ (2 ^ (10 + k) | high).
Proof. apply (buddy_size_ladder 10 14 16 64); lia. Defined.

(** ** Latch type flags *)

(** X14: the four latch types are distinct single-bit flags: two of them
    share a bit only when they are the same type, so a type is recovered
    from its value and each value lies in 1..8. *)
Theorem rw_lock_type_flags (m m' : rw_lock_type_t) :
  (Z.land (rw_lock_type_value m) (rw_lock_type_value m') <> 0 <-> m = m')
  /\ (rw_lock_type_value m = rw_lock_type_value m' <-> m = m')
  /\ (exists k, 0 <= k < 4 /\ rw_lock_type_value m = 2 ^ k).
Proof.
  split; [| split].
  - destruct m, m'; cbn; split; intros H;
      (reflexivity || discriminate H || (exfalso; now apply H) || trivial).
    all: discriminate.
  - destruct m, m'; cbn; split; intros H;
      (reflexivity || discriminate H).
  - destruct m; [exists 0 | exists 1 | exists 2 | exists 3];
      (split; [lia | reflexivity]).
Qed.
